(** * Fibonacci efficiency comparison

    A shallow embedding of [Problemas/fibonacci/fibonacci_efficiency.py]:
    the three strategies (naive recursion, iteration, fast doubling), each
    returning a pair (value, steps), and the timing harness [run_and_time].

    Python integers are unbounded, so they are [Z]; [>>], [<<] and [&] are
    [Z.shiftr], [Z.shiftl] and [Z.land], which agree with Python on negative
    numbers as well (floor shift, two's complement and).  The readings of
    [time.perf_counter] are binary64 floats.  The interpreter's recursion
    limit is not modelled: a call either returns a value or recurses for
    ever. *)

From Equations Require Import Equations.
From Stdlib Require Import String ZArith List Lia PrimFloat.
Import ListNotations.
Local Open Scope Z_scope.

(** ** The mathematical sequence

    The reference the strategies are compared with, as the specification
    words it: fib(0)=0, fib(1)=1, fib(n)=fib(n-1)+fib(n-2). *)

Fixpoint fib (n : nat) : Z :=
  match n with
  | O => 0
  | S m => match m with
           | O => 1
           | S p => fib m + fib p
           end
  end.

Definition Fib (n : Z) : Z := fib (Z.to_nat n).

(** ** The data model *)

Record FibResult : Type := mkFibResult {
  n : Z;
  value : Z;
  steps : Z;
  time_ms : float;
  algo : string
}.

(** ** Recursive strategy

    [if n < 2: return n, 1], else two recursive calls on [n-1] and [n-2].
    Every integer below 2, the negative ones included, is a base case, so the
    recursion is well founded on [Z.to_nat n]. *)

Equations? fib_recursive_with_counts (n : Z) : Z * Z by wf (Z.to_nat n) lt :=
  fib_recursive_with_counts n with Z_lt_dec n 2 => {
    | left _ := (n, 1);
    | right _ :=
        let '(v1, s1) := fib_recursive_with_counts (n - 1) in
        let '(v2, s2) := fib_recursive_with_counts (n - 2) in
        (v1 + v2, s1 + s2 + 1) }.
Proof. all: lia. Qed.

(** The tree of calls of the naive recursion: one node per evaluation of
    [fib_recursive_with_counts], a leaf for a base case and a binary node for
    a call that adds the results of its two sub-calls. *)

Inductive call_tree : Type :=
| BaseCall (arg : Z)
| AddCall (arg : Z) (left_call right_call : call_tree).

Fixpoint nodes (t : call_tree) : Z :=
  match t with
  | BaseCall _ => 1
  | AddCall _ l r => 1 + nodes l + nodes r
  end.

(** The longest chain of nested calls in a tree of calls. *)
Fixpoint height (t : call_tree) : Z :=
  match t with
  | BaseCall _ => 1
  | AddCall _ l r => 1 + Z.max (height l) (height r)
  end.

Equations? recursion_tree (n : Z) : call_tree by wf (Z.to_nat n) lt :=
  recursion_tree n with Z_lt_dec n 2 => {
    | left _ := BaseCall n;
    | right _ := AddCall n (recursion_tree (n - 1)) (recursion_tree (n - 2)) }.
Proof. all: lia. Qed.

(** ** Iterative strategy *)

(** Python's [range(start, stop)]: empty when [stop <= start]. *)
Definition range (start stop : Z) : list Z :=
  map (fun i => start + Z.of_nat i) (seq 0 (Z.to_nat (stop - start))).

(** One turn of the loop body [a, b = b, a + b; steps += 1]; the loop
    variable [_] is not used. *)
Definition iter_body (st : Z * Z * Z) (_ : Z) : Z * Z * Z :=
  let '(a, b, steps) := st in (b, a + b, steps + 1).

Definition iter_loop (n : Z) : Z * Z * Z :=
  fold_left iter_body (range 2 (n + 1)) (0, 1, 1).

Definition fib_iterative_with_counts (n : Z) : Z * Z :=
  if n <? 2 then (n, 1)
  else let '(_, b, steps) := iter_loop n in (b, steps).

(** ** Fast-doubling strategy

    The inner [fd] recurses on [k >> 1] and stops only at [k == 0].  For a
    negative [k] that test never succeeds ([-1 >> 1 = -1]), so [fd] is a
    partial function: it is given a bound on the depth of the recursion and
    answers [None] when the bound is reached before the base case. *)

Fixpoint fd (depth : nat) (k : Z) : option (Z * Z * Z) :=
  match depth with
  | O => None
  | S depth' =>
      if k =? 0 then Some (0, 1, 1)
      else
        match fd depth' (Z.shiftr k 1) with
        | None => None
        | Some (f_k, f_k1, s) =>
            let c := f_k * (Z.shiftl f_k1 1 - f_k) in
            let d := f_k * f_k + f_k1 * f_k1 in
            if negb (Z.land k 1 =? 0)
            then Some (d, c + d, s + 1)
            else Some (c, d, s + 1)
        end
  end.

Definition fib_fast_doubling_with_counts (depth : nat) (n : Z)
  : option (Z * Z) :=
  match fd depth n with
  | None => None
  | Some (f_n, _, steps) => Some (f_n, steps)
  end.

(** [fast_doubling_returns n r]: the call on [n] returns [r]. *)
Definition fast_doubling_returns (n : Z) (r : Z * Z) : Prop :=
  exists depth, fib_fast_doubling_with_counts depth n = Some r.

(** The number of nested calls of [fd] on a non-negative [k]: one for
    [k = 0], and one more than the bit length of [k] otherwise. *)
Definition fd_levels (k : Z) : Z :=
  if k =? 0 then 1 else Z.log2 k + 2.

(** ** Timing harness

    [run_and_time] reads the clock twice per element and calls a strategy
    that may fail to return; both effects are threaded through a state and
    error monad over the clock. *)

Record Clock : Type := mkClock {
  readings : nat -> float;   (* the successive values of the counter *)
  reads : nat                (* how many of them were consumed *)
}.

Definition M (A : Type) : Type := Clock -> option (A * Clock).

Definition ret {A} (a : A) : M A := fun c => Some (a, c).

Definition bind {A B} (m : M A) (f : A -> M B) : M B :=
  fun c => match m c with
           | None => None
           | Some (a, c') => f a c'
           end.

Definition call {A} (r : option A) : M A :=
  fun c => match r with
           | None => None
           | Some a => Some (a, c)
           end.

Definition perf_counter : M float :=
  fun c => Some (readings c (reads c), mkClock (readings c) (S (reads c))).

Notation "x <- m ;; k" := (bind m (fun x => k))
  (at level 61, m at next level, right associativity).
Notation "' p <- m ;; k" := (bind m (fun x => let p := x in k))
  (at level 61, p pattern, m at next level, right associativity).

(** The [for] loop of [run_and_time], with the list [out] it appends to. *)
Fixpoint run_loop (fn : Z -> option (Z * Z)) (name : string)
    (n_list : list Z) (out : list FibResult) : M (list FibResult) :=
  match n_list with
  | [] => ret out
  | n :: rest =>
      t0 <- perf_counter ;;
      '(val, steps) <- call (fn n) ;;
      t1 <- perf_counter ;;
      let dt := PrimFloat.mul (PrimFloat.sub t1 t0) 1000%float in
      run_loop fn name rest (out ++ [mkFibResult n val steps dt name])
  end.

Definition run_and_time (fn : Z -> option (Z * Z)) (n_list : list Z)
    (name : string) : M (list FibResult) :=
  run_loop fn name n_list [].


Definition iterative_strategy (n : Z) : option (Z * Z) :=
  Some (fib_iterative_with_counts n).

Definition fast_doubling_strategy (depth : nat) (n : Z) : option (Z * Z) :=
  fib_fast_doubling_with_counts depth n.

(** What a result records besides its timing. *)
Definition measured (r : FibResult) : Z * option (Z * Z) * string :=
  (n r, Some (value r, steps r), algo r).

(** The clock after [k] more readings. *)
Definition advance (c : Clock) (k : nat) : Clock :=
  mkClock (readings c) (reads c + k).

(** The time recorded for the [i]-th element of the list: the difference of
    the two readings taken around its call, in milliseconds. *)
Definition elapsed_ms (c : Clock) (i : nat) : float :=
  PrimFloat.mul
    (PrimFloat.sub (readings c (reads c + 2 * i + 1))
                   (readings c (reads c + 2 * i)))
    1000%float.

(** ** Digit count of the large-n table

    [lambda x: 1 if x == 0 else int(math.log10(x)) + 1].  The logarithm is
    the floating-point one of the C library, which has no counterpart here:
    [int_log10 x] stands for [int(math.log10(x))], whatever it rounds to. *)

Section Digits.
Variable int_log10 : Z -> Z.

Definition digits (x : Z) : Z :=
  if x =? 0 then 1 else int_log10 x + 1.
End Digits.

(** ** The main program

    [main] builds two collections of results, [res_small] and [res_large],
    by calling the harness once per strategy and appending what it returns;
    it then hands them to the table and plotting libraries.  The collections,
    the rows of the large table and the arguments of the [plt.plot] calls are
    modelled; writing the files is not.  [depth] bounds the nesting of [fd],
    as for the strategy itself. *)

Definition n_small : list Z := [0; 1; 2; 3; 5; 8; 10; 15; 20; 25; 30; 35].

Definition n_large : list Z := [10; 100; 1000; 10000; 100000; 1000000].


Definition main_res_large (depth : nat) : M (list FibResult) :=
  let res_large := [] in
  r <- run_and_time iterative_strategy n_large "iterative" ;;
  let res_large := res_large ++ r in
  r <- run_and_time (fast_doubling_strategy depth) n_large "fast_doubling" ;;
  let res_large := res_large ++ r in
  ret res_large.

(** A row of the large table once the column [digits] is added and the
    column [value] dropped: [n], [steps], [time_ms], [algo], [digits]. *)
Definition df_large_row (int_log10 : Z -> Z) (r : FibResult)
  : Z * Z * float * string * Z :=
  (n r, steps r, time_ms r, algo r, digits int_log10 (value r)).

(** [Series.unique()]: the distinct labels, in the order of their first
    appearance. *)
Fixpoint unique_from (seen : list string) (l : list string) : list string :=
  match l with
  | [] => []
  | a :: l' =>
      if existsb (String.eqb a) seen then unique_from seen l'
      else a :: unique_from (a :: seen) l'
  end.

Definition unique (l : list string) : list string := unique_from [] l.

(** The rows selected by [df[df['algo'] == a]]. *)
Definition sub_frame (df : list FibResult) (a : string) : list FibResult :=
  filter (fun r => String.eqb (algo r) a) df.

(** The calls [plt.plot(sub['n'].values, sub[col].values, label=algo)] of one
    figure, as the list of their arguments (xs, ys, label). *)
Definition plot_lines {Y : Type} (df : list FibResult) (col : FibResult -> Y)
  : list (list Z * list Y * string) :=
  map (fun a => let sub := sub_frame df a in (map n sub, map col sub, a))
      (unique (map algo df)).

(** A block of results under one label, as one call of the harness leaves
    it: not empty, and every row carries the label. *)
Definition labelled_block (ab : string * list FibResult) : Prop :=
  snd ab <> [] /\ Forall (fun r => algo r = fst ab) (snd ab).

(** * Properties *)

(** ** The sequence and its doubling identities *)

Lemma fib_SS (m : nat) : fib (S (S m)) = fib (S m) + fib m.
Proof. reflexivity. Qed.

Lemma fib_nonneg (m : nat) : 0 <= fib m /\ 0 <= fib (S m).
Proof.
  induction m as [|m [IH0 IH1]]; [simpl; lia|].
  rewrite fib_SS. lia.
Qed.

Lemma fib_add (p m : nat) :
  fib (m + S p) = fib (S m) * fib (S p) + fib m * fib p.
Proof.
  enough (H : fib (m + S p) = fib (S m) * fib (S p) + fib m * fib p
              /\ fib (S m + S p) = fib (S (S m)) * fib (S p) + fib (S m) * fib p)
    by apply H.
  induction m as [|m [IH0 IH1]].
  - split.
    + change (0 + S p)%nat with (S p). change (fib 1) with 1.
      change (fib 0) with 0. ring.
    + change (1 + S p)%nat with (S (S p)). rewrite fib_SS.
      change (fib 2) with 1. change (fib 1) with 1. ring.
  - split; [exact IH1|].
    change (S (S m) + S p)%nat with (S (S (m + S p))).
    rewrite fib_SS. change (S (m + S p)) with (S m + S p)%nat.
    rewrite IH0, IH1, (fib_SS (S m)), (fib_SS m). ring.
Qed.

Lemma fib_double_succ (k : nat) :
  fib (S (2 * k)) = fib k * fib k + fib (S k) * fib (S k).
Proof.
  replace (S (2 * k)) with (k + S k)%nat by lia.
  rewrite fib_add. ring.
Qed.

Lemma fib_double (k : nat) :
  fib (2 * k) = fib k * (2 * fib (S k) - fib k).
Proof.
  destruct k as [|j]; [reflexivity|].
  replace (2 * S j)%nat with (j + S (S j))%nat by lia.
  rewrite fib_add, (fib_SS j). ring.
Qed.

Lemma Fib_0 : Fib 0 = 0.
Proof. reflexivity. Qed.

Lemma Fib_1 : Fib 1 = 1.
Proof. reflexivity. Qed.

Lemma Fib_rec (m : Z) : 2 <= m -> Fib m = Fib (m - 1) + Fib (m - 2).
Proof.
  intros Hm. unfold Fib.
  replace (Z.to_nat m) with (S (S (Z.to_nat (m - 2)))) by lia.
  replace (Z.to_nat (m - 1)) with (S (Z.to_nat (m - 2))) by lia.
  apply fib_SS.
Qed.

Lemma Fib_succ (m : Z) : 0 <= m -> Fib (m + 2) = Fib (m + 1) + Fib m.
Proof.
  intros Hm. rewrite (Fib_rec (m + 2)) by lia.
  f_equal; f_equal; lia.
Qed.

Lemma Fib_nonneg (m : Z) : 0 <= Fib m.
Proof. apply fib_nonneg. Qed.

Lemma Fib_double (k : Z) :
  0 <= k -> Fib (2 * k) = Fib k * (2 * Fib (k + 1) - Fib k).
Proof.
  intros Hk. unfold Fib.
  replace (Z.to_nat (2 * k)) with (2 * Z.to_nat k)%nat by lia.
  replace (Z.to_nat (k + 1)) with (S (Z.to_nat k)) by lia.
  apply fib_double.
Qed.

Lemma Fib_double_succ (k : Z) :
  0 <= k -> Fib (2 * k + 1) = Fib k * Fib k + Fib (k + 1) * Fib (k + 1).
Proof.
  intros Hk. unfold Fib.
  replace (Z.to_nat (2 * k + 1)) with (S (2 * Z.to_nat k)) by lia.
  replace (Z.to_nat (k + 1)) with (S (Z.to_nat k)) by lia.
  apply fib_double_succ.
Qed.

(** ** Recursive strategy *)

(** Course-of-values induction over the non-negative integers. *)
Lemma Z_strong_ind (P : Z -> Prop) :
  (forall m, 0 <= m -> (forall j, 0 <= j < m -> P j) -> P m) ->
  forall m, 0 <= m -> P m.
Proof.
  intros step m Hm.
  apply (Z_lt_induction (fun i => 0 <= i -> P i)); [|exact Hm|exact Hm].
  intros x IH Hx. apply step; [exact Hx|].
  intros j Hj. apply IH; lia.
Qed.

Lemma fib_recursive_base (m : Z) :
  m < 2 -> fib_recursive_with_counts m = (m, 1).
Proof.
  intros Hm. rewrite fib_recursive_with_counts_equation_1.
  destruct (Z_lt_dec m 2) as [Hlt|Hge]; [reflexivity | lia].
Qed.

Lemma fib_recursive_step (m : Z) :
  2 <= m ->
  fib_recursive_with_counts m =
    (fst (fib_recursive_with_counts (m - 1))
       + fst (fib_recursive_with_counts (m - 2)),
     snd (fib_recursive_with_counts (m - 1))
       + snd (fib_recursive_with_counts (m - 2)) + 1).
Proof.
  intros Hm. rewrite fib_recursive_with_counts_equation_1.
  destruct (Z_lt_dec m 2) as [Hlt|Hge]; [lia|].
  cbn.
  destruct (fib_recursive_with_counts (m - 1)) as [v1 s1].
  destruct (fib_recursive_with_counts (m - 2)) as [v2 s2].
  reflexivity.
Qed.

Lemma fib_recursive_value (m : Z) :
  0 <= m -> fst (fib_recursive_with_counts m) = Fib m.
Proof.
  revert m. apply Z_strong_ind. intros m Hm IH.
  destruct (Z_lt_dec m 2) as [Hlt|Hge].
  - rewrite fib_recursive_base by lia. cbn [fst snd].
    assert (Hcases : m = 0 \/ m = 1) by lia.
    destruct Hcases; subst m; reflexivity.
  - rewrite fib_recursive_step by lia. cbn [fst snd].
    rewrite !IH by lia. rewrite (Fib_rec m) by lia. reflexivity.
Qed.

(** The count in closed form: the tree of calls for [m] has [2 fib(m+1) - 1]
    nodes. *)
Lemma fib_recursive_steps_closed (m : Z) :
  0 <= m -> snd (fib_recursive_with_counts m) = 2 * Fib (m + 1) - 1.
Proof.
  revert m. apply Z_strong_ind. intros m Hm IH.
  destruct (Z_lt_dec m 2) as [Hlt|Hge].
  - rewrite fib_recursive_base by lia. cbn [fst snd].
    assert (Hcases : m = 0 \/ m = 1) by lia.
    destruct Hcases; subst m; reflexivity.
  - rewrite fib_recursive_step by lia. cbn [fst snd].
    rewrite !IH by lia.
    replace (m - 1 + 1) with m by lia.
    replace (m - 2 + 1) with (m - 1) by lia.
    rewrite (Fib_rec (m + 1)) by lia.
    replace (m + 1 - 1) with m by lia.
    replace (m + 1 - 2) with (m - 1) by lia.
    lia.
Qed.

Lemma recursion_tree_base (m : Z) : m < 2 -> recursion_tree m = BaseCall m.
Proof.
  intros Hm. rewrite recursion_tree_equation_1.
  destruct (Z_lt_dec m 2) as [Hlt|Hge]; [reflexivity | lia].
Qed.

Lemma recursion_tree_step (m : Z) :
  2 <= m ->
  recursion_tree m =
    AddCall m (recursion_tree (m - 1)) (recursion_tree (m - 2)).
Proof.
  intros Hm. rewrite recursion_tree_equation_1.
  destruct (Z_lt_dec m 2) as [Hlt|Hge]; [lia | reflexivity].
Qed.

Lemma fib_recursive_counts_nodes (m : Z) :
  snd (fib_recursive_with_counts m) = nodes (recursion_tree m).
Proof.
  destruct (Z_lt_dec m 0) as [Hneg|Hpos].
  - rewrite fib_recursive_base, recursion_tree_base by lia. reflexivity.
  - apply Z.nlt_ge in Hpos. revert m Hpos.
    apply Z_strong_ind. intros m Hm IH.
    destruct (Z_lt_dec m 2) as [Hlt|Hge].
    + rewrite fib_recursive_base, recursion_tree_base by lia. reflexivity.
    + rewrite fib_recursive_step, recursion_tree_step by lia.
      cbn [fst snd nodes]. rewrite !IH by lia. lia.
Qed.

(** ** Iterative strategy *)

Lemma range_length (start stop : Z) :
  length (range start stop) = Z.to_nat (stop - start).
Proof. unfold range. rewrite length_map, length_seq. reflexivity. Qed.

(** The loop invariant: started on the pair [(fib j, fib (j+1))], the body
    run once per element of [l] ends on the pair of index [j + length l],
    with one step counted per turn. *)
Lemma iter_body_invariant (l : list Z) (j : nat) (s : Z) :
  fold_left iter_body l (fib j, fib (S j), s) =
    (fib (j + length l), fib (S (j + length l)), s + Z.of_nat (length l)).
Proof.
  revert j s. induction l as [|x l IH]; intros j s.
  - cbn [fold_left length]. rewrite Nat.add_0_r, Z.add_0_r. reflexivity.
  - cbn [fold_left length iter_body].
    replace (fib j + fib (S j)) with (fib (S (S j))) by (rewrite fib_SS; ring).
    rewrite IH.
    replace (j + S (length l))%nat with (S j + length l)%nat by lia.
    replace (s + Z.of_nat (S (length l))) with (s + 1 + Z.of_nat (length l))
      by lia.
    reflexivity.
Qed.

Lemma iter_loop_prefix (m : Z) (i : nat) :
  (i <= length (range 2 (m + 1)))%nat ->
  fold_left iter_body (firstn i (range 2 (m + 1))) (0, 1, 1) =
    (fib i, fib (S i), 1 + Z.of_nat i).
Proof.
  intros Hi.
  change (0, 1, 1) with (fib 0, fib 1, 1).
  rewrite iter_body_invariant, length_firstn, Nat.min_l by exact Hi.
  reflexivity.
Qed.

Lemma iter_loop_result (m : Z) :
  2 <= m -> iter_loop m = (Fib (m - 1), Fib m, m).
Proof.
  intros Hm. unfold iter_loop.
  change (0, 1, 1) with (fib 0, fib 1, 1).
  rewrite iter_body_invariant, range_length. unfold Fib.
  replace (0 + Z.to_nat (m + 1 - 2))%nat with (Z.to_nat (m - 1)) by lia.
  replace (S (Z.to_nat (m - 1))) with (Z.to_nat m) by lia.
  replace (1 + Z.of_nat (Z.to_nat (m + 1 - 2))) with m by lia.
  reflexivity.
Qed.

Lemma fib_iterative_base (m : Z) :
  m < 2 -> fib_iterative_with_counts m = (m, 1).
Proof.
  intros Hm. unfold fib_iterative_with_counts.
  destruct (Z.ltb_spec m 2); [reflexivity | lia].
Qed.

Lemma fib_iterative_loop (m : Z) :
  2 <= m -> fib_iterative_with_counts m = (Fib m, m).
Proof.
  intros Hm. unfold fib_iterative_with_counts.
  destruct (Z.ltb_spec m 2); [lia|].
  rewrite iter_loop_result by exact Hm. reflexivity.
Qed.

Lemma fib_iterative_value (m : Z) :
  0 <= m -> fst (fib_iterative_with_counts m) = Fib m.
Proof.
  intros Hm. destruct (Z_lt_dec m 2) as [Hlt|Hge].
  - rewrite fib_iterative_base by exact Hlt. cbn [fst].
    assert (Hcases : m = 0 \/ m = 1) by lia.
    destruct Hcases; subst m; reflexivity.
  - rewrite fib_iterative_loop by lia. reflexivity.
Qed.

(** ** Fast-doubling strategy *)

Lemma shiftr_1_half (k : Z) : Z.shiftr k 1 = k / 2.
Proof. rewrite Z.shiftr_div_pow2 by lia. reflexivity. Qed.

Lemma shiftl_1_double (x : Z) : Z.shiftl x 1 = 2 * x.
Proof. rewrite Z.shiftl_mul_pow2 by lia. change (2 ^ 1) with 2. ring. Qed.

Lemma land_1_parity (k : Z) : Z.land k 1 = k mod 2.
Proof. change 1 with (Z.ones 1) at 1. rewrite Z.land_ones by lia. reflexivity. Qed.

(** [k >> 1] is strictly below a positive [k] and never negative for it. *)
Lemma shiftr_1_decreases (k : Z) : 0 < k -> 0 <= Z.shiftr k 1 < k.
Proof.
  intros Hk. rewrite shiftr_1_half.
  split; [apply Z.div_pos; lia | apply Z.div_lt; lia].
Qed.

(** On a negative [k] the shift stays negative: the base case is never
    reached. *)
Lemma shiftr_1_negative (k : Z) : k < 0 -> Z.shiftr k 1 < 0.
Proof. intros Hk. apply Z.shiftr_neg. exact Hk. Qed.

Lemma fd_levels_pos (k : Z) : 1 <= fd_levels k.
Proof.
  unfold fd_levels. destruct (Z.eqb_spec k 0); [lia|].
  pose proof (Z.log2_nonneg k). lia.
Qed.

Lemma fd_levels_half (k : Z) :
  0 < k -> fd_levels k = fd_levels (Z.shiftr k 1) + 1.
Proof.
  intros Hk. unfold fd_levels.
  destruct (Z.eqb_spec k 0) as [Hk0|_]; [lia|].
  assert (Hk2 : k = 2 * (k / 2) + k mod 2) by (apply Z.div_mod; lia).
  pose proof (Z.mod_pos_bound k 2 eq_refl) as Hr.
  destruct (Z.eqb_spec (Z.shiftr k 1) 0) as [Hq|Hq].
  - rewrite shiftr_1_half in Hq.
    assert (Hk1 : k = 1) by lia. rewrite Hk1. reflexivity.
  - rewrite Z.log2_shiftr by exact Hk.
    rewrite shiftr_1_half in Hq.
    assert (Hge : 2 <= k) by (pose proof (Z.div_pos k 2); lia).
    pose proof (Z.log2_le_mono 2 k Hge) as Hlog.
    change (Z.log2 2) with 1 in Hlog. lia.
Qed.

Lemma fd_base (depth : nat) : fd (S depth) 0 = Some (0, 1, 1).
Proof. reflexivity. Qed.

Lemma fd_step (depth : nat) (k : Z) :
  k <> 0 ->
  fd (S depth) k =
    match fd depth (Z.shiftr k 1) with
    | None => None
    | Some (f_k, f_k1, s) =>
        let c := f_k * (Z.shiftl f_k1 1 - f_k) in
        let d := f_k * f_k + f_k1 * f_k1 in
        if negb (Z.land k 1 =? 0)
        then Some (d, c + d, s + 1)
        else Some (c, d, s + 1)
    end.
Proof.
  intros Hk. cbn [fd].
  destruct (Z.eqb_spec k 0) as [Hk0|_]; [contradiction | reflexivity].
Qed.

(** With room for [fd_levels k] nested calls, [fd] on a non-negative [k]
    returns the pair of consecutive Fibonacci numbers of index [k] and the
    number of calls. *)
Lemma fd_correct (depth : nat) :
  forall k : Z,
    0 <= k -> fd_levels k <= Z.of_nat depth ->
    fd depth k = Some (Fib k, Fib (k + 1), fd_levels k).
Proof.
  induction depth as [|depth IH]; intros k Hk Hroom.
  - pose proof (fd_levels_pos k). lia.
  - destruct (Z.eq_dec k 0) as [Hk0|Hk0].
    + subst k. reflexivity.
    + assert (Hpos : 0 < k) by lia.
      pose proof (shiftr_1_decreases k Hpos) as Hq.
      pose proof (fd_levels_half k Hpos) as Hlev.
      rewrite fd_step by exact Hk0.
      rewrite (IH (Z.shiftr k 1)) by lia.
      cbv zeta. rewrite shiftl_1_double, land_1_parity.
      rewrite <- Fib_double, <- Fib_double_succ by lia.
      rewrite shiftr_1_half in *.
      assert (Hk2 : k = 2 * (k / 2) + k mod 2) by (apply Z.div_mod; lia).
      pose proof (Z.mod_pos_bound k 2 eq_refl) as Hr.
      rewrite Hlev.
      destruct (Z.eqb_spec (k mod 2) 0) as [Heven|Hodd]; cbn [negb].
      * replace (2 * (k / 2)) with k by lia.
        replace (2 * (k / 2) + 1) with (k + 1) by lia. reflexivity.
      * replace (2 * (k / 2) + 1) with k by lia.
        replace (Fib (2 * (k / 2)) + Fib k) with (Fib (k + 1)); [reflexivity|].
        replace (k + 1) with (2 * (k / 2) + 2) by lia.
        rewrite Fib_succ by lia.
        replace (2 * (k / 2) + 1) with k by lia. ring.
Qed.

(** Conversely [fd] returns only on a non-negative argument, and only when
    the bound leaves room for all its nested calls. *)
Lemma fd_returns_inv (depth : nat) :
  forall (k : Z) (r : Z * Z * Z),
    fd depth k = Some r -> 0 <= k /\ fd_levels k <= Z.of_nat depth.
Proof.
  induction depth as [|depth IH]; intros k r Hret.
  - discriminate Hret.
  - destruct (Z.eq_dec k 0) as [Hk0|Hk0].
    + subst k. split; [lia|]. change (fd_levels 0) with 1. lia.
    + rewrite fd_step in Hret by exact Hk0.
      destruct (fd depth (Z.shiftr k 1)) as [r'|] eqn:Hinner;
        [|discriminate Hret].
      destruct (IH _ _ Hinner) as [Hq Hlev].
      apply Z.shiftr_nonneg in Hq.
      assert (Hpos : 0 < k) by lia.
      rewrite (fd_levels_half k Hpos). lia.
Qed.

Lemma fd_negative (depth : nat) (k : Z) : k < 0 -> fd depth k = None.
Proof.
  intros Hk. destruct (fd depth k) as [r|] eqn:Hret; [|reflexivity].
  apply fd_returns_inv in Hret. lia.
Qed.

Lemma fast_doubling_correct (depth : nat) (m : Z) :
  0 <= m -> fd_levels m <= Z.of_nat depth ->
  fib_fast_doubling_with_counts depth m = Some (Fib m, fd_levels m).
Proof.
  intros Hm Hroom. unfold fib_fast_doubling_with_counts.
  rewrite fd_correct by assumption. reflexivity.
Qed.

Lemma fast_doubling_inv (depth : nat) (m : Z) (r : Z * Z) :
  fib_fast_doubling_with_counts depth m = Some r ->
  0 <= m /\ fd_levels m <= Z.of_nat depth /\ r = (Fib m, fd_levels m).
Proof.
  unfold fib_fast_doubling_with_counts. intros Hret.
  destruct (fd depth m) as [[[f_n f_n1] s]|] eqn:Hfd; [|discriminate Hret].
  destruct (fd_returns_inv _ _ _ Hfd) as [Hm Hroom].
  rewrite fd_correct in Hfd by assumption.
  injection Hfd as <- _ <-. injection Hret as <-. auto.
Qed.

Lemma fast_doubling_negative (depth : nat) (m : Z) :
  m < 0 -> fib_fast_doubling_with_counts depth m = None.
Proof.
  intros Hm. unfold fib_fast_doubling_with_counts.
  rewrite fd_negative by exact Hm. reflexivity.
Qed.

Lemma fast_doubling_returns_iff (m : Z) (r : Z * Z) :
  fast_doubling_returns m r <-> 0 <= m /\ r = (Fib m, fd_levels m).
Proof.
  split.
  - intros [depth Hret]. apply fast_doubling_inv in Hret. tauto.
  - intros [Hm ->]. exists (Z.to_nat (fd_levels m)).
    apply fast_doubling_correct; [exact Hm|].
    pose proof (fd_levels_pos m). lia.
Qed.

(** ** Timing harness *)

Lemma advance_advance (c : Clock) (a b : nat) :
  advance (advance c a) b = advance c (a + b).
Proof.
  unfold advance. cbn [readings reads]. f_equal. lia.
Qed.

Lemma elapsed_ms_advance (c : Clock) (i : nat) :
  elapsed_ms (advance c 2) i = elapsed_ms c (S i).
Proof.
  unfold elapsed_ms, advance. cbn [readings reads].
  replace (reads c + 2 + 2 * i + 1)%nat with (reads c + 2 * S i + 1)%nat by lia.
  replace (reads c + 2 + 2 * i)%nat with (reads c + 2 * S i)%nat by lia.
  reflexivity.
Qed.

Lemma run_loop_returns (fn : Z -> option (Z * Z)) (name : string)
    (ns : list Z) :
  (forall x, In x ns -> fn x <> None) ->
  forall (out : list FibResult) (c : Clock),
  exists res,
    run_loop fn name ns out c = Some (out ++ res, advance c (2 * length ns))
    /\ map measured res = map (fun x => (x, fn x, name)) ns
    /\ map time_ms res = map (elapsed_ms c) (seq 0 (length ns)).
Proof.
  induction ns as [|x ns IH]; intros Hfn out c.
  - exists []. cbn. unfold ret, advance. rewrite app_nil_r, Nat.add_0_r.
    destruct c; auto.
  - destruct (fn x) as [[val st]|] eqn:Hx;
      [|exfalso; apply (Hfn x); [left; reflexivity | exact Hx]].
    destruct (IH (fun y Hy => Hfn y (or_intror Hy))
                (out ++ [mkFibResult x val st (elapsed_ms c 0) name])
                (advance c 2)) as (res & Hrun & Hmeas & Htime).
    exists (mkFibResult x val st (elapsed_ms c 0) name :: res).
    split; [|split].
    + cbn [run_loop]. unfold bind, perf_counter, call. rewrite Hx.
      cbn [readings reads].
      replace (mkClock (readings c) (S (S (reads c)))) with (advance c 2)
        by (unfold advance; f_equal; lia).
      replace (PrimFloat.mul
                 (PrimFloat.sub (readings c (S (reads c)))
                                (readings c (reads c))) 1000)
        with (elapsed_ms c 0)
        by (unfold elapsed_ms; repeat f_equal; lia).
      rewrite Hrun, <- app_assoc, advance_advance. cbn [app length].
      replace (2 * S (length ns))%nat with (2 + 2 * length ns)%nat by lia.
      reflexivity.
    + cbn [map measured n value steps algo]. rewrite Hmeas, Hx. reflexivity.
    + cbn [map time_ms length seq]. f_equal.
      rewrite Htime, <- seq_shift, map_map.
      apply map_ext. intros i. apply elapsed_ms_advance.
Qed.

(** An element on which the strategy does not return stops the harness:
    the exception leaves [run_and_time] and no list is returned. *)
Lemma run_loop_fails (fn : Z -> option (Z * Z)) (name : string)
    (ns : list Z) :
  (exists x, In x ns /\ fn x = None) ->
  forall (out : list FibResult) (c : Clock),
    run_loop fn name ns out c = None.
Proof.
  induction ns as [|y ns IH]; intros [x [Hin Hx]] out c.
  - destruct Hin.
  - cbn [run_loop]. unfold bind, perf_counter, call.
    destruct (fn y) as [[val st]|] eqn:Hy; [|reflexivity].
    apply IH. destruct Hin as [->|Hin]; [congruence|].
    exists x. auto.
Qed.

(** * The claims *)

(** C1. The three strategies agree on the value.  For every integer [m] the
    recursive and the iterative strategy return the same value; whenever the
    fast-doubling strategy returns on [m], its value is that one too; and on
    every [m >= 0], so on each of 0, 1, ..., 30, it does return. *)
Theorem strategies_agree_on_value (m : Z) :
  fst (fib_recursive_with_counts m) = fst (fib_iterative_with_counts m)
  /\ (forall r, fast_doubling_returns m r ->
        fst r = fst (fib_recursive_with_counts m)
        /\ fst r = fst (fib_iterative_with_counts m))
  /\ (0 <= m ->
        exists s, fast_doubling_returns m
                    (fst (fib_recursive_with_counts m), s)).
Proof.
  assert (Hri : fst (fib_recursive_with_counts m)
                = fst (fib_iterative_with_counts m)).
  { destruct (Z_lt_dec m 0) as [Hneg|Hpos].
    - rewrite fib_recursive_base, fib_iterative_base by lia. reflexivity.
    - rewrite fib_recursive_value, fib_iterative_value by lia. reflexivity. }
  split; [exact Hri|]. split.
  - intros r Hr. apply fast_doubling_returns_iff in Hr as [Hm ->].
    rewrite <- Hri, fib_recursive_value by exact Hm. auto.
  - intros Hm. exists (fd_levels m). apply fast_doubling_returns_iff.
    rewrite fib_recursive_value by exact Hm. auto.
Qed.

Lemma strategies_agree_on_value_witness :
  fst (fib_recursive_with_counts 10) = fst (fib_iterative_with_counts 10)
  /\ exists s, fast_doubling_returns 10 (fst (fib_recursive_with_counts 10), s).
Proof.
  destruct (strategies_agree_on_value 10) as (Hri & _ & Hfd).
  split; [exact Hri | apply Hfd; lia].
Defined.

(** C2. On every [m >= 0] the fast-doubling strategy returns [fib m].  The
    sequence satisfies the two doubling identities; [fd] answers [(0, 1)] at
    [k = 0], computes its answer at [k <> 0] from the answer [(a, b)] at
    [k >> 1] as [c = a (2 b - a)] and [d = a a + b b], and at every level
    [m >> j] of the recursion returns the pair [(fib k, fib (k + 1))]. *)
Theorem fast_doubling_computes_fib (m : Z) :
  0 <= m ->
  (exists s, fast_doubling_returns m (Fib m, s))
  /\ (forall r, fast_doubling_returns m r -> fst r = Fib m)
  /\ Fib (2 * m) = Fib m * (2 * Fib (m + 1) - Fib m)
  /\ Fib (2 * m + 1) = Fib m * Fib m + Fib (m + 1) * Fib (m + 1)
  /\ (forall depth, fd (S depth) 0 = Some (Fib 0, Fib 1, 1))
  /\ (forall depth a b s,
        m <> 0 -> fd depth (Z.shiftr m 1) = Some (a, b, s) ->
        fd (S depth) m =
          Some (if Z.odd m
                then (a * a + b * b, a * (2 * b - a) + (a * a + b * b), s + 1)
                else (a * (2 * b - a), a * a + b * b, s + 1)))
  /\ (forall j, 0 <= j ->
        let k := Z.shiftr m j in
        exists depth s, fd depth k = Some (Fib k, Fib (k + 1), s)).
Proof.
  intros Hm. repeat split.
  - exists (fd_levels m). apply fast_doubling_returns_iff. auto.
  - intros r Hr. apply fast_doubling_returns_iff in Hr as [_ ->]. reflexivity.
  - apply Fib_double, Hm.
  - apply Fib_double_succ, Hm.
  - intros depth a b s Hm0 Hinner.
    rewrite fd_step, Hinner by exact Hm0. cbv zeta.
    rewrite shiftl_1_double, land_1_parity, Zmod_odd.
    destruct (Z.odd m); reflexivity.
  - intros j Hj k.
    assert (Hk : 0 <= k) by (apply Z.shiftr_nonneg; exact Hm).
    exists (Z.to_nat (fd_levels k)), (fd_levels k).
    apply fd_correct; [exact Hk|].
    pose proof (fd_levels_pos k). lia.
Qed.

Lemma fast_doubling_computes_fib_witness :
  0 <= 10 /\ exists s, fast_doubling_returns 10 (Fib 10, s).
Proof.
  split; [lia | apply (fast_doubling_computes_fib 10); lia].
Defined.

(** C3. On every [m >= 0] the recursive strategy returns [fib m] and a step
    count that is 1 when [m < 2] and one more than the counts of the two
    sub-calls otherwise: the number of nodes of the tree of calls. *)
Theorem fib_recursive_contract (m : Z) :
  0 <= m ->
  fst (fib_recursive_with_counts m) = Fib m
  /\ Fib 0 = 0 /\ Fib 1 = 1
  /\ (2 <= m -> Fib m = Fib (m - 1) + Fib (m - 2))
  /\ (m < 2 -> snd (fib_recursive_with_counts m) = 1)
  /\ (2 <= m ->
        snd (fib_recursive_with_counts m) =
          1 + snd (fib_recursive_with_counts (m - 1))
            + snd (fib_recursive_with_counts (m - 2)))
  /\ snd (fib_recursive_with_counts m) = nodes (recursion_tree m).
Proof.
  intros Hm. repeat split.
  - apply fib_recursive_value, Hm.
  - apply Fib_rec.
  - intros Hlt. rewrite fib_recursive_base by exact Hlt. reflexivity.
  - intros Hge. rewrite (fib_recursive_step m) by exact Hge.
    cbn [snd]. ring.
  - apply fib_recursive_counts_nodes.
Qed.

Lemma fib_recursive_contract_witness :
  0 <= 6
  /\ fst (fib_recursive_with_counts 6) = Fib 6
  /\ snd (fib_recursive_with_counts 6) = nodes (recursion_tree 6).
Proof.
  split; [lia|].
  destruct (fib_recursive_contract 6) as (Hv & _ & _ & _ & _ & _ & Hs);
    [lia | split; assumption].
Defined.

(** C4. On every [m >= 0] the iterative strategy returns [fib m]; its loop
    keeps, after the turn that brings the index to [k], the pair
    [(fib (k - 1), fib k)] and the count [k]; the count returned is 1 when
    [m < 2] and [m] when [m >= 2], that is [max 1 m]. *)
Theorem fib_iterative_contract (m : Z) :
  0 <= m ->
  fib_iterative_with_counts m = (Fib m, Z.max 1 m)
  /\ (m < 2 -> snd (fib_iterative_with_counts m) = 1)
  /\ (2 <= m -> snd (fib_iterative_with_counts m) = m)
  /\ (forall k, 1 <= k <= Z.max 1 m ->
        fold_left iter_body
          (firstn (Z.to_nat (k - 1)) (range 2 (m + 1))) (0, 1, 1)
        = (Fib (k - 1), Fib k, k)).
Proof.
  intros Hm. repeat split.
  - destruct (Z_lt_dec m 2) as [Hlt|Hge].
    + rewrite fib_iterative_base by exact Hlt.
      rewrite Z.max_l by lia.
      assert (Hcases : m = 0 \/ m = 1) by lia.
      destruct Hcases; subst m; reflexivity.
    + rewrite fib_iterative_loop by lia.
      rewrite Z.max_r by lia. reflexivity.
  - intros Hlt. rewrite fib_iterative_base by exact Hlt. reflexivity.
  - intros Hge. rewrite fib_iterative_loop by exact Hge. reflexivity.
  - intros k Hk. rewrite iter_loop_prefix by (rewrite range_length; lia).
    unfold Fib.
    replace (S (Z.to_nat (k - 1))) with (Z.to_nat k) by lia.
    replace (1 + Z.of_nat (Z.to_nat (k - 1))) with k by lia.
    reflexivity.
Qed.

Lemma fib_iterative_contract_witness :
  0 <= 10 /\ fib_iterative_with_counts 10 = (Fib 10, Z.max 1 10).
Proof.
  split; [lia | apply (fib_iterative_contract 10); lia].
Defined.

(** C5, as the code has it.  The fast-doubling strategy returns [(0, 1)] on
    0 and [(1, 2)] on 1, and nothing else: the call on 1 counts its own level
    and the base case under it. *)
Theorem fast_doubling_base_cases (r : Z * Z) :
  (fast_doubling_returns 0 r <-> r = (0, 1))
  /\ (fast_doubling_returns 1 r <-> r = (1, 2)).
Proof.
  split; rewrite fast_doubling_returns_iff.
  - change (Fib 0, fd_levels 0) with (0, 1). intuition lia.
  - change (Fib 1, fd_levels 1) with (1, 2). intuition lia.
Qed.

(** C5, as stated, fails: the strategy does not return [(1, 1)] on 1. *)
Lemma fast_doubling_one_is_not_one_step :
  ~ (fast_doubling_returns 0 (0, 1) /\ fast_doubling_returns 1 (1, 1)).
Proof.
  intros [_ H1]. apply fast_doubling_returns_iff in H1 as [_ H1].
  discriminate H1.
Qed.

(** C6. The step count of the fast-doubling strategy is logarithmic: on
    [m > 0] it is [log2 m + 2], one more than on [m >> 1]; on [2 ^ k] it is
    [k + 2]; and the count on [2 ^ 20] is below three times the count on
    [2 ^ 10]. *)
Theorem fast_doubling_steps_logarithmic :
  (forall m, 0 < m -> fast_doubling_returns m (Fib m, Z.log2 m + 2))
  /\ (forall m r r',
        0 < m ->
        fast_doubling_returns m r -> fast_doubling_returns (Z.shiftr m 1) r' ->
        snd r = snd r' + 1)
  /\ (forall k, 0 <= k -> fast_doubling_returns (2 ^ k) (Fib (2 ^ k), k + 2))
  /\ (forall r20 r10,
        fast_doubling_returns (2 ^ 20) r20 ->
        fast_doubling_returns (2 ^ 10) r10 ->
        snd r20 = 22 /\ snd r10 = 12 /\ snd r20 < snd r10 * 3).
Proof.
  assert (Hlog : forall m, 0 < m ->
                   fast_doubling_returns m (Fib m, Z.log2 m + 2)).
  { intros m Hm. apply fast_doubling_returns_iff. split; [lia|].
    unfold fd_levels. destruct (Z.eqb_spec m 0); [lia | reflexivity]. }
  assert (Hpow : forall k, 0 <= k ->
                   fast_doubling_returns (2 ^ k) (Fib (2 ^ k), k + 2)).
  { intros k Hk. rewrite <- (Z.log2_pow2 k) at 3 by exact Hk.
    apply Hlog. apply Z.pow_pos_nonneg; lia. }
  split; [exact Hlog|]. split; [|split; [exact Hpow|]].
  - intros m r r' Hm Hr Hr'.
    apply fast_doubling_returns_iff in Hr as [_ ->].
    apply fast_doubling_returns_iff in Hr' as [_ ->].
    cbn [snd]. apply fd_levels_half, Hm.
  - intros r20 r10 H20 H10.
    apply fast_doubling_returns_iff in H20 as [_ ->].
    apply fast_doubling_returns_iff in H10 as [_ ->].
    cbn [snd]. change (fd_levels (2 ^ 20)) with 22.
    change (fd_levels (2 ^ 10)) with 12. lia.
Qed.

Lemma fast_doubling_steps_logarithmic_witness :
  0 <= 3 /\ fast_doubling_returns (2 ^ 3) (Fib (2 ^ 3), 3 + 2).
Proof.
  destruct fast_doubling_steps_logarithmic as (_ & _ & Hpow & _).
  split; [lia | apply (Hpow 3); lia].
Defined.

(** C7. When the strategy returns on every element of the list,
    [run_and_time] returns one result per element, in the order of the list:
    the [i]-th result records the [i]-th element, the label, and the value
    and steps the strategy returns on that element.  Its only effect is on
    the clock, read twice per element; each result keeps the difference of
    its two readings in milliseconds. *)
Theorem run_and_time_one_result_per_n (fn : Z -> option (Z * Z))
    (ns : list Z) (name : string) (c : Clock) :
  (forall x, In x ns -> fn x <> None) ->
  exists out,
    run_and_time fn ns name c = Some (out, advance c (2 * length ns))
    /\ length out = length ns
    /\ map measured out = map (fun x => (x, fn x, name)) ns
    /\ (forall i x, nth_error ns i = Some x ->
          exists r, nth_error out i = Some r
                    /\ n r = x /\ algo r = name
                    /\ fn x = Some (value r, steps r)
                    /\ time_ms r = elapsed_ms c i).
Proof.
  intros Hfn.
  destruct (run_loop_returns fn name ns Hfn [] c)
    as (out & Hrun & Hmeas & Htime).
  exists out. split; [exact Hrun|].
  assert (Hlen : length out = length ns).
  { rewrite <- (length_map measured out), Hmeas, length_map. reflexivity. }
  split; [exact Hlen|]. split; [exact Hmeas|].
  intros i x Hi.
  assert (Hlt : (i < length out)%nat).
  { rewrite Hlen. apply nth_error_Some. congruence. }
  destruct (nth_error out i) as [r|] eqn:Hr;
    [|apply nth_error_None in Hr; lia].
  exists r. split; [reflexivity|].
  pose proof (map_nth_error measured i out Hr) as Hm1.
  rewrite Hmeas in Hm1.
  rewrite (map_nth_error (fun y => (y, fn y, name)) i ns Hi) in Hm1.
  unfold measured in Hm1. injection Hm1 as Hn Hv Ha.
  pose proof (map_nth_error time_ms i out Hr) as Ht.
  rewrite Htime in Ht.
  assert (Hseq : nth_error (seq 0 (length ns)) i = Some i).
  { rewrite nth_error_seq, <- Hlen.
    destruct (Nat.ltb_spec i (length out)); [reflexivity | lia]. }
  rewrite (map_nth_error (elapsed_ms c) i (seq 0 (length ns)) Hseq) in Ht.
  injection Ht as Ht. auto.
Qed.

Lemma run_and_time_one_result_per_n_witness :
  (forall x, In x [0; 1; 10] -> iterative_strategy x <> None)
  /\ exists out,
       run_and_time iterative_strategy [0; 1; 10] "iterative"
         (mkClock (fun _ => 0%float) 0)
       = Some (out, advance (mkClock (fun _ => 0%float) 0) 6)
       /\ map measured out
          = map (fun x => (x, iterative_strategy x, "iterative"%string))
              [0; 1; 10].
Proof.
  assert (Hfn : forall x, In x [0; 1; 10] -> iterative_strategy x <> None)
    by (intros x _; discriminate).
  split; [exact Hfn|].
  destruct (run_and_time_one_result_per_n iterative_strategy [0; 1; 10]
              "iterative" (mkClock (fun _ => 0%float) 0) Hfn)
    as (out & Hrun & _ & Hmeas & _).
  exists out. split; [exact Hrun | exact Hmeas].
Defined.

(** C9. On a negative [m] the recursive and the iterative strategy both
    take the [m < 2] branch and return [(m, 1)]: the argument comes back as
    the value, and no error is raised. *)
Theorem negative_inputs_pass_through (m : Z) :
  m < 0 ->
  fib_recursive_with_counts m = (m, 1)
  /\ fib_iterative_with_counts m = (m, 1).
Proof.
  intros Hm. split.
  - apply fib_recursive_base. lia.
  - apply fib_iterative_base. lia.
Qed.

Lemma negative_inputs_pass_through_witness :
  -3 < 0
  /\ fib_recursive_with_counts (-3) = (-3, 1)
  /\ fib_iterative_with_counts (-3) = (-3, 1).
Proof.
  split; [lia | apply (negative_inputs_pass_through (-3)); lia].
Defined.

(** C10. On every [m >= 0] the fast-doubling strategy terminates: from some
    depth on, every bound on the nesting of [fd] gives the same result.  The
    argument of the inner call, [m >> 1], is smaller than a positive [m] and
    not negative, and some number of shifts brings [m] to 0.  On a negative
    argument the shift stays negative and no bound is enough. *)
Theorem fast_doubling_terminates (m : Z) :
  0 <= m ->
  (exists d r, forall depth,
      (d <= depth)%nat -> fib_fast_doubling_with_counts depth m = Some r)
  /\ (0 < m -> 0 <= Z.shiftr m 1 < m)
  /\ (exists j, 0 <= j /\ Z.shiftr m j = 0)
  /\ (forall k, k < 0 ->
        Z.shiftr k 1 < 0
        /\ forall depth, fib_fast_doubling_with_counts depth k = None).
Proof.
  intros Hm. split; [|split; [|split]].
  - exists (Z.to_nat (fd_levels m)), (Fib m, fd_levels m).
    intros depth Hdepth. apply fast_doubling_correct; [exact Hm | lia].
  - apply shiftr_1_decreases.
  - exists (Z.log2 m + 1). pose proof (Z.log2_nonneg m) as Hlog.
    split; [lia|]. apply Z.shiftr_eq_0; lia.
  - intros k Hk. split; [apply shiftr_1_negative, Hk|].
    intros depth. apply fast_doubling_negative, Hk.
Qed.

Lemma fast_doubling_terminates_witness :
  0 <= 10
  /\ exists d r, forall depth,
       (d <= depth)%nat -> fib_fast_doubling_with_counts depth 10 = Some r.
Proof.
  split; [lia | apply (fast_doubling_terminates 10); lia].
Defined.

(** ** Further facts and checks on concrete inputs *)

(** The value 0 has one digit, whatever the library's logarithm does. *)
Lemma digits_zero (int_log10 : Z -> Z) : digits int_log10 0 = 1.
Proof. reflexivity. Qed.

(** A strategy that does not return on some element makes the whole call
    fail, whatever was measured before. *)
Lemma run_and_time_propagates_failure (fn : Z -> option (Z * Z))
    (ns : list Z) (name : string) (c : Clock) :
  (exists x, In x ns /\ fn x = None) -> run_and_time fn ns name c = None.
Proof. intros Hx. apply run_loop_fails, Hx. Qed.

Example fast_doubling_harness_on_negative :
  run_and_time (fast_doubling_strategy 1000) [3; -1; 5] "fast_doubling"
    (mkClock (fun _ => 0%float) 0) = None.
Proof.
  apply run_and_time_propagates_failure. exists (-1). split.
  - right. left. reflexivity.
  - apply fast_doubling_negative. lia.
Qed.

Example strategies_at_10 :
  fib_recursive_with_counts 10 = (55, 177)
  /\ fib_iterative_with_counts 10 = (55, 10)
  /\ fib_fast_doubling_with_counts 5 10 = Some (55, 5)
  /\ fib_fast_doubling_with_counts 4 10 = None.
Proof. repeat split; vm_compute; reflexivity. Qed.

Example small_inputs_agree :
  let n_small := [0; 1; 2; 3; 5; 8; 10; 15; 20] in
  map (fun m => Some (fst (fib_recursive_with_counts m))) n_small
    = map (fun m => option_map fst (fib_fast_doubling_with_counts 8 m)) n_small
  /\ map (fun m => fst (fib_iterative_with_counts m)) n_small
    = [0; 1; 1; 2; 5; 21; 55; 610; 6765].
Proof. split; vm_compute; reflexivity. Qed.

Example fast_doubling_at_100 :
  fib_fast_doubling_with_counts 8 100 = Some (354224848179261915075, 8)
  /\ fib_iterative_with_counts 100 = (354224848179261915075, 100).
Proof. split; vm_compute; reflexivity. Qed.

Example harness_on_fast_doubling :
  option_map fst
    (run_and_time (fast_doubling_strategy 8) [0; 1; 2] "fast_doubling"
       (mkClock (fun i => match i with
                          | 1%nat => 0.5%float
                          | _ => 0.25%float
                          end) 0))
  = Some [mkFibResult 0 0 1 250%float "fast_doubling";
          mkFibResult 1 1 2 0%float "fast_doubling";
          mkFibResult 2 1 3 0%float "fast_doubling"].
Proof. vm_compute. reflexivity. Qed.

(** * Beyond the claims *)

(** ** Cost of the strategies *)

Lemma Fib_pos (m : Z) : 1 <= m -> 0 < Fib m.
Proof.
  intros Hm. unfold Fib.
  replace (Z.to_nat m) with (S (Z.to_nat (m - 1))) by lia.
  generalize (Z.to_nat (m - 1)). intros j.
  induction j as [|j IH]; [reflexivity|].
  rewrite fib_SS. pose proof (fib_nonneg j). lia.
Qed.

Lemma Fib_le_succ (m : Z) : 0 <= m -> Fib m <= Fib (m + 1).
Proof.
  intros Hm. destruct (Z.eq_dec m 0) as [->|Hm0]; [cbv; discriminate|].
  rewrite (Fib_rec (m + 1)) by lia.
  replace (m + 1 - 1) with m by lia.
  pose proof (Fib_nonneg (m + 1 - 2)). lia.
Qed.

Lemma Fib_ge_pred (m : Z) : 1 <= m -> m - 1 <= Fib m.
Proof.
  intros Hm. assert (H0 : 0 <= m) by lia. revert m H0 Hm.
  apply (Z_strong_ind (fun m => 1 <= m -> m - 1 <= Fib m)).
  intros m Hm IH H1.
  destruct (Z_lt_dec m 3) as [Hlt|Hge].
  - assert (Hcases : m = 1 \/ m = 2) by lia.
    destruct Hcases; subst m; cbv; discriminate.
  - rewrite Fib_rec by lia.
    pose proof (IH (m - 1)). pose proof (Fib_pos (m - 2)). lia.
Qed.

Lemma log2_plus_2_le (m : Z) : 3 <= m -> Z.log2 m + 2 <= m.
Proof.
  intros Hm. destruct (Z.log2_spec m) as [Hlow _]; [lia|].
  pose proof (Z.log2_nonneg m) as Hk.
  destruct (Z_lt_dec (Z.log2 m) 2) as [Hsmall|Hbig]; [lia|].
  pose proof (Z.pow_gt_lin_r 2 (Z.log2 m - 1)) as Hlin.
  replace (2 ^ Z.log2 m) with (2 * 2 ^ (Z.log2 m - 1)) in Hlow
    by (rewrite <- Z.pow_succ_r by lia; f_equal; lia).
  lia.
Qed.

(** X1. The step count of the recursive strategy in closed form: on
    [m >= 0] it is twice the value the strategy returns on [m + 1], less 1,
    that is [2 fib (m + 1) - 1]. *)
Theorem recursive_steps_closed_form (m : Z) :
  0 <= m ->
  snd (fib_recursive_with_counts m)
    = 2 * fst (fib_recursive_with_counts (m + 1)) - 1
  /\ snd (fib_recursive_with_counts m) = 2 * Fib (m + 1) - 1.
Proof.
  intros Hm. rewrite fib_recursive_value by lia.
  split; apply fib_recursive_steps_closed, Hm.
Qed.

Lemma recursive_steps_closed_form_witness :
  0 <= 10
  /\ snd (fib_recursive_with_counts 10)
       = 2 * fst (fib_recursive_with_counts (10 + 1)) - 1.
Proof.
  split; [lia | apply (recursive_steps_closed_form 10); lia].
Defined.

(** X2. The step count of the recursive strategy is exponential in [m]:
    between [2 ^ (m / 2)] and [2 ^ m] on every [m >= 0]. *)
Theorem recursive_steps_exponential (m : Z) :
  0 <= m ->
  2 ^ (m / 2) <= snd (fib_recursive_with_counts m) <= 2 ^ m.
Proof.
  revert m. apply Z_strong_ind. intros m Hm IH.
  destruct (Z_lt_dec m 2) as [Hlt|Hge].
  - rewrite fib_recursive_base by exact Hlt. cbn [snd].
    assert (Hcases : m = 0 \/ m = 1) by lia.
    destruct Hcases; subst m; cbv; split; discriminate.
  - rewrite fib_recursive_step by lia. cbn [snd].
    pose proof (IH (m - 1)) as [L1 U1]; [lia|].
    pose proof (IH (m - 2)) as [L2 U2]; [lia|].
    assert (Hhalf : m / 2 = (m - 2) / 2 + 1).
    { replace m with ((m - 2) + 1 * 2) at 1 by lia.
      rewrite Z.div_add by lia. reflexivity. }
    assert (Hdiv : 0 <= (m - 2) / 2) by (apply Z.div_pos; lia).
    assert (Hmono : 2 ^ ((m - 2) / 2) <= 2 ^ ((m - 1) / 2)).
    { apply Z.pow_le_mono_r; [lia|]. apply Z.div_le_mono; lia. }
    assert (Hp2 : 2 ^ m = 4 * 2 ^ (m - 2)).
    { replace m with (Z.succ (Z.succ (m - 2))) at 1 by lia.
      rewrite !Z.pow_succ_r by lia. ring. }
    assert (Hp1 : 2 ^ (m - 1) = 2 * 2 ^ (m - 2)).
    { replace (m - 1) with (Z.succ (m - 2)) by lia.
      rewrite Z.pow_succ_r by lia. reflexivity. }
    assert (Hone : 1 <= 2 ^ (m - 2)) by (apply Z.pow_le_mono_r with (b := 0); lia).
    rewrite Hhalf, Z.pow_add_r, Z.pow_1_r by lia.
    lia.
Qed.

Lemma recursive_steps_exponential_witness :
  0 <= 20
  /\ 2 ^ (20 / 2) <= snd (fib_recursive_with_counts 20) <= 2 ^ 20.
Proof.
  split; [lia | apply (recursive_steps_exponential 20); lia].
Defined.

(** X3. The step counts are ordered as the costs of the strategies: the
    iterative count never exceeds the recursive one on [m >= 0], and from
    [m = 3] on the fast-doubling count never exceeds the iterative one. *)
Theorem step_counts_are_ordered (m : Z) :
  0 <= m ->
  snd (fib_iterative_with_counts m) <= snd (fib_recursive_with_counts m)
  /\ (3 <= m ->
        exists v s, fast_doubling_returns m (v, s)
                    /\ s <= snd (fib_iterative_with_counts m))
  /\ (5 <= m ->
        snd (fib_iterative_with_counts m)
          < snd (fib_recursive_with_counts m)).
Proof.
  intros Hm.
  assert (Hrec : snd (fib_recursive_with_counts m) = 2 * Fib (m + 1) - 1)
    by apply fib_recursive_steps_closed, Hm.
  pose proof (Fib_ge_pred (m + 1)) as Hfib.
  split; [|split].
  - destruct (Z_lt_dec m 2) as [Hlt|Hge].
    + rewrite fib_recursive_base, fib_iterative_base by exact Hlt. lia.
    + rewrite Hrec, fib_iterative_loop by lia. cbn [snd]. lia.
  - intros H3. exists (Fib m), (fd_levels m). split.
    + apply fast_doubling_returns_iff. split; [lia | reflexivity].
    + rewrite fib_iterative_loop by lia. cbn [snd]. unfold fd_levels.
      destruct (Z.eqb_spec m 0); [lia|]. apply log2_plus_2_le, H3.
  - intros H5. rewrite Hrec, fib_iterative_loop by lia. cbn [snd]. lia.
Qed.

Lemma step_counts_are_ordered_witness :
  0 <= 10
  /\ snd (fib_iterative_with_counts 10) <= snd (fib_recursive_with_counts 10).
Proof.
  split; [lia | apply (step_counts_are_ordered 10); lia].
Defined.

(** X4. The fast-doubling strategy nests exactly as many calls of [fd] as
    the step count it reports: under a bound [depth] it returns on [m] if
    and only if [m >= 0] and the count, 1 at 0 and [log2 m + 2] above, is
    at most [depth]; the result is then [(fib m, count)]. *)
Theorem fast_doubling_depth_is_steps (depth : nat) (m : Z) (r : Z * Z) :
  fib_fast_doubling_with_counts depth m = Some r <->
  0 <= m
  /\ r = (Fib m, if m =? 0 then 1 else Z.log2 m + 2)
  /\ snd r <= Z.of_nat depth.
Proof.
  split.
  - intros Hret. apply fast_doubling_inv in Hret as (Hm & Hroom & ->).
    repeat split; assumption.
  - intros (Hm & -> & Hroom). apply fast_doubling_correct; assumption.
Qed.

(** X5. Every triple [fd] returns is made of non-negative numbers with
    [f_k <= f_k1] and [f_k1 > 0], so the difference [(f_k1 << 1) - f_k] of
    the next level is never negative; the count is at least 1. *)
Theorem fd_results_are_ordered (depth : nat) (k f_k f_k1 s : Z) :
  fd depth k = Some (f_k, f_k1, s) ->
  0 <= f_k <= f_k1 /\ 0 < f_k1 /\ 0 < Z.shiftl f_k1 1 - f_k /\ 1 <= s.
Proof.
  intros Hret. destruct (fd_returns_inv _ _ _ Hret) as [Hk Hroom].
  rewrite fd_correct in Hret by assumption.
  injection Hret as <- <- <-.
  pose proof (Fib_nonneg k). pose proof (Fib_le_succ k Hk).
  pose proof (Fib_pos (k + 1)). pose proof (fd_levels_pos k).
  rewrite shiftl_1_double. lia.
Qed.

Lemma fd_results_are_ordered_witness :
  fd 5 10 = Some (55, 89, 5)
  /\ 0 <= 55 <= 89 /\ 0 < 89 /\ 0 < Z.shiftl 89 1 - 55 /\ 1 <= 5.
Proof.
  split; [reflexivity | apply (fd_results_are_ordered 5 10); reflexivity].
Defined.

(** ** The harness *)

(** The list the loop appends to only prefixes what the loop produces. *)
Lemma run_loop_acc (fn : Z -> option (Z * Z)) (name : string) (ns : list Z) :
  forall (out : list FibResult) (c : Clock),
    run_loop fn name ns out c =
      match run_loop fn name ns [] c with
      | Some (res, c') => Some (out ++ res, c')
      | None => None
      end.
Proof.
  induction ns as [|x ns IH]; intros out c.
  - cbn [run_loop]. unfold ret. rewrite app_nil_r. reflexivity.
  - cbn [run_loop]. unfold bind, perf_counter, call.
    destruct (fn x) as [[val st]|]; [|reflexivity].
    rewrite IH. rewrite (IH ([] ++ _)).
    match goal with
    | |- context [run_loop fn name ns [] ?c1] =>
        destruct (run_loop fn name ns [] c1) as [[res c']|]
    end; [|reflexivity].
    rewrite <- !app_assoc. reflexivity.
Qed.

Lemma strategy_returns_or_not (fn : Z -> option (Z * Z)) (ns : list Z) :
  (forall x, In x ns -> fn x <> None) \/ (exists x, In x ns /\ fn x = None).
Proof.
  induction ns as [|y ns [IH|[x [Hin Hx]]]].
  - left. intros x [].
  - destruct (fn y) as [r|] eqn:Hy.
    + left. intros x [<-|Hin]; [congruence | apply IH, Hin].
    + right. exists y. split; [left; reflexivity | exact Hy].
  - right. exists x. split; [right; exact Hin | exact Hx].
Qed.

(** X6. [run_and_time] fails exactly when the strategy does not return on
    some element of the list: one such element anywhere in the list loses
    the results of all the others. *)
Theorem run_and_time_fails_iff (fn : Z -> option (Z * Z)) (ns : list Z)
    (name : string) (c : Clock) :
  run_and_time fn ns name c = None <-> exists x, In x ns /\ fn x = None.
Proof.
  split.
  - intros Hnone. destruct (strategy_returns_or_not fn ns) as [Hall|Hex];
      [|exact Hex].
    destruct (run_loop_returns fn name ns Hall [] c) as (res & Hrun & _).
    unfold run_and_time in Hnone. congruence.
  - intros Hex. apply run_loop_fails, Hex.
Qed.

(** X7. Measuring a concatenation is measuring its parts one after the
    other on the same clock and appending the results. *)
Theorem run_and_time_app (fn : Z -> option (Z * Z)) (ns1 ns2 : list Z)
    (name : string) (c : Clock) :
  run_and_time fn (ns1 ++ ns2) name c =
    (r1 <- run_and_time fn ns1 name ;;
     r2 <- run_and_time fn ns2 name ;;
     ret (r1 ++ r2)) c.
Proof.
  unfold run_and_time. generalize (@nil FibResult) at 1 2. revert c.
  induction ns1 as [|x ns1 IH]; intros c out.
  - cbn [app run_loop]. unfold bind, ret. apply run_loop_acc.
  - cbn [app run_loop]. unfold bind, perf_counter, call in *.
    destruct (fn x) as [[val st]|]; [|reflexivity].
    apply IH.
Qed.

(** X8. Only the timings depend on the clock: whether [run_and_time]
    returns, and the element, value, steps and label of each result, are
    the same under any two clocks. *)
Theorem run_and_time_clock_independent (fn : Z -> option (Z * Z))
    (ns : list Z) (name : string) (c1 c2 : Clock) :
  option_map (fun p => map measured (fst p)) (run_and_time fn ns name c1)
  = option_map (fun p => map measured (fst p)) (run_and_time fn ns name c2).
Proof.
  unfold run_and_time.
  destruct (strategy_returns_or_not fn ns) as [Hall|Hex].
  - destruct (run_loop_returns fn name ns Hall [] c1) as (r1 & -> & Hm1 & _).
    destruct (run_loop_returns fn name ns Hall [] c2) as (r2 & -> & Hm2 & _).
    cbn [option_map fst app]. rewrite Hm1, Hm2. reflexivity.
  - rewrite !run_loop_fails by exact Hex. reflexivity.
Qed.

(** ** The main program *)

(** One call of the harness on a list where the strategy is known in closed
    form. *)
Lemma run_and_time_block (fn : Z -> option (Z * Z)) (f : Z -> Z * Z)
    (ns : list Z) (name : string) (c : Clock) :
  (forall x, In x ns -> fn x = Some (f x)) ->
  exists res,
    run_and_time fn ns name c = Some (res, advance c (2 * length ns))
    /\ map measured res = map (fun x => (x, Some (f x), name)) ns.
Proof.
  intros Hf.
  destruct (run_loop_returns fn name ns) with (out := @nil FibResult) (c := c)
    as (res & Hrun & Hmeas & _).
  { intros x Hx. rewrite (Hf x Hx). discriminate. }
  exists res. split; [exact Hrun|].
  rewrite Hmeas. apply map_ext_in. intros x Hx. rewrite (Hf x Hx). reflexivity.
Qed.

(** What the rows of such a block hold. *)
Lemma measured_block (f : Z -> Z * Z) (ns : list Z) (name : string)
    (res : list FibResult) :
  map measured res = map (fun x => (x, Some (f x), name)) ns ->
  forall r, In r res ->
    In (n r) ns /\ (value r, steps r) = f (n r) /\ algo r = name.
Proof.
  intros Hmeas r Hr.
  apply (in_map measured) in Hr. rewrite Hmeas in Hr.
  apply in_map_iff in Hr as (x & Hx & Hin).
  unfold measured in Hx. injection Hx as Hn Hv Ha.
  subst x. rewrite Hv. auto.
Qed.

Lemma measured_block_length (f : Z -> Z * Z) (ns : list Z) (name : string)
    (res : list FibResult) :
  map measured res = map (fun x => (x, Some (f x), name)) ns ->
  length res = length ns /\ map n res = ns /\ map steps res = map (fun x => snd (f x)) ns.
Proof.
  intros Hmeas. split; [|split].
  - rewrite <- (length_map measured res), Hmeas, length_map. reflexivity.
  - transitivity (map (fun t => fst (fst t)) (map measured res)).
    + rewrite map_map. reflexivity.
    + rewrite Hmeas, map_map. cbn [fst]. apply map_id.
  - transitivity
      (map (fun t : Z * option (Z * Z) * string =>
              match snd (fst t) with Some p => snd p | None => 0 end)
           (map measured res)).
    + rewrite map_map. reflexivity.
    + rewrite Hmeas, map_map. reflexivity.
Qed.


Lemma iterative_strategy_closed (x : Z) :
  0 <= x -> iterative_strategy x = Some (Fib x, Z.max 1 x).
Proof.
  intros Hx. unfold iterative_strategy. f_equal.
  destruct (Z_lt_dec x 2) as [Hlt|Hge].
  - rewrite fib_iterative_base by exact Hlt. rewrite Z.max_l by lia.
    assert (Hcases : x = 0 \/ x = 1) by lia.
    destruct Hcases; subst x; reflexivity.
  - rewrite fib_iterative_loop by lia. rewrite Z.max_r by lia. reflexivity.
Qed.


Lemma n_large_bounds (x : Z) : In x n_large -> 10 <= x /\ fd_levels x <= 21.
Proof.
  unfold n_large. cbn [In]. intros Hx.
  repeat (destruct Hx as [<-|Hx]; [split; [lia | cbv; discriminate]|]).
  destruct Hx.
Qed.


Lemma main_res_large_blocks (depth : nat) (c : Clock) :
  (21 <= depth)%nat ->
  exists r1 r2,
    main_res_large depth c = Some (r1 ++ r2, advance c 24)
    /\ map measured r1
       = map (fun x => (x, Some (Fib x, x), "iterative"%string)) n_large
    /\ map measured r2
       = map (fun x => (x, Some (Fib x, fd_levels x), "fast_doubling"%string))
           n_large.
Proof.
  intros Hdepth. unfold main_res_large.
  destruct (run_and_time_block iterative_strategy
              (fun x => (Fib x, x)) n_large "iterative" c)
    as (r1 & Hrun1 & Hm1).
  { intros x Hx. destruct (n_large_bounds x Hx) as [H10 _].
    rewrite iterative_strategy_closed, Z.max_r by lia. reflexivity. }
  destruct (run_and_time_block (fast_doubling_strategy depth)
              (fun x => (Fib x, fd_levels x)) n_large "fast_doubling"
              (advance c (2 * length n_large)))
    as (r2 & Hrun2 & Hm2).
  { intros x Hx. destruct (n_large_bounds x Hx) as [H10 Hlev].
    apply fast_doubling_correct; lia. }
  exists r1, r2. split; [|split; [exact Hm1 | exact Hm2]].
  unfold bind, ret. rewrite Hrun1, Hrun2, advance_advance. reflexivity.
Qed.



(** X10. The large collection.  With room for 21 nested calls of [fd],
    [main] gets 12 results from 24 readings: the iterative block, then the
    fast-doubling block, each following [n_large].  The iterative steps are
    [n] itself, the fast-doubling steps 5, 8, 11, 15, 18 and 21.  Every value
    is the Fibonacci number of its [n] and is positive, so the digit count of
    each row of the table comes from the logarithm, never from the special
    case of 0. *)
Theorem main_large_table (depth : nat) (c : Clock) :
  (21 <= depth)%nat ->
  exists r1 r2,
    main_res_large depth c = Some (r1 ++ r2, advance c 24)
    /\ map n r1 = n_large /\ map n r2 = n_large
    /\ map steps r1 = n_large
    /\ map steps r2 = [5; 8; 11; 15; 18; 21]
    /\ (forall r, In r r1 -> algo r = "iterative"%string)
    /\ (forall r, In r r2 -> algo r = "fast_doubling"%string)
    /\ (forall r, In r (r1 ++ r2) -> value r = Fib (n r) /\ 0 < value r)
    /\ (forall int_log10 r, In r (r1 ++ r2) ->
          df_large_row int_log10 r
          = (n r, steps r, time_ms r, algo r, int_log10 (Fib (n r)) + 1)).
Proof.
  intros Hdepth.
  destruct (main_res_large_blocks depth c Hdepth)
    as (r1 & r2 & Hrun & Hm1 & Hm2).
  assert (Hval : forall r, In r (r1 ++ r2) ->
                   value r = Fib (n r) /\ 0 < value r).
  { intros r Hr. apply in_app_or in Hr as [Hr|Hr].
    - apply (measured_block _ _ _ _ Hm1) in Hr as (Hin & Hv & _).
      injection Hv as Hv _. apply n_large_bounds in Hin as [H10 _].
      rewrite Hv. split; [reflexivity | apply Fib_pos; lia].
    - apply (measured_block _ _ _ _ Hm2) in Hr as (Hin & Hv & _).
      injection Hv as Hv _. apply n_large_bounds in Hin as [H10 _].
      rewrite Hv. split; [reflexivity | apply Fib_pos; lia]. }
  destruct (measured_block_length _ _ _ _ Hm1) as (_ & Hn1 & Hs1).
  destruct (measured_block_length _ _ _ _ Hm2) as (_ & Hn2 & Hs2).
  exists r1, r2. repeat apply conj.
  - exact Hrun.
  - exact Hn1.
  - exact Hn2.
  - rewrite Hs1. cbn [snd]. apply map_id.
  - rewrite Hs2. reflexivity.
  - intros r Hr. apply (measured_block _ _ _ _ Hm1 r Hr).
  - intros r Hr. apply (measured_block _ _ _ _ Hm2 r Hr).
  - exact Hval.
  - intros int_log10 r Hr. destruct (Hval r Hr) as [Hv Hpos].
    unfold df_large_row, digits.
    destruct (Z.eqb_spec (value r) 0) as [H0|_]; [lia|].
    rewrite Hv. reflexivity.
Qed.

Lemma main_large_table_witness :
  (21 <= 21)%nat
  /\ exists r1 r2,
       main_res_large 21 (mkClock (fun _ => 0%float) 0)
       = Some (r1 ++ r2, advance (mkClock (fun _ => 0%float) 0) 24)
       /\ map steps r2 = [5; 8; 11; 15; 18; 21].
Proof.
  split; [lia|].
  destruct (main_large_table 21 (mkClock (fun _ => 0%float) 0))
    as (r1 & r2 & Hrun & _ & _ & _ & Hs2 & _); [lia|].
  exists r1, r2. split; [exact Hrun | exact Hs2].
Defined.

(** ** The plotted lines *)

Lemma sub_frame_app (df1 df2 : list FibResult) (a : string) :
  sub_frame (df1 ++ df2) a = sub_frame df1 a ++ sub_frame df2 a.
Proof. apply filter_app. Qed.

Lemma sub_frame_same (b : list FibResult) (a : string) :
  Forall (fun r => algo r = a) b -> sub_frame b a = b.
Proof.
  induction 1 as [|r b Hr _ IH]; [reflexivity|].
  unfold sub_frame in *. cbn [filter]. rewrite Hr, String.eqb_refl, IH.
  reflexivity.
Qed.

Lemma sub_frame_other (b : list FibResult) (a a' : string) :
  Forall (fun r => algo r = a') b -> a' <> a -> sub_frame b a = [].
Proof.
  intros Hb Hneq. induction Hb as [|r b Hr _ IH]; [reflexivity|].
  unfold sub_frame in *. cbn [filter]. rewrite Hr.
  destruct (String.eqb_spec a' a) as [Heq|_]; [contradiction | exact IH].
Qed.

Lemma sub_frame_absent (blocks : list (string * list FibResult)) (a : string) :
  Forall labelled_block blocks -> ~ In a (map fst blocks) ->
  sub_frame (concat (map snd blocks)) a = [].
Proof.
  induction 1 as [|[a0 b0] blocks [_ Hb0] _ IH]; intros Hout; [reflexivity|].
  cbn [map concat snd fst] in *. rewrite sub_frame_app.
  rewrite (sub_frame_other b0 a a0 Hb0), IH; [reflexivity | |].
  - intros Hin. apply Hout. right. exact Hin.
  - intros ->. apply Hout. left. reflexivity.
Qed.

Lemma sub_frame_block (blocks : list (string * list FibResult))
    (a : string) (b : list FibResult) :
  NoDup (map fst blocks) -> Forall labelled_block blocks ->
  In (a, b) blocks -> sub_frame (concat (map snd blocks)) a = b.
Proof.
  intros Hnd Hok. revert Hnd.
  induction Hok as [|[a0 b0] blocks [_ Hb0] Hrest IH]; intros Hnd Hin;
    [destruct Hin|].
  cbn [map concat snd fst] in *. inversion Hnd as [|? ? Hfresh Hnd']; subst.
  rewrite sub_frame_app. destruct Hin as [Heq|Hin].
  - injection Heq as -> ->.
    rewrite (sub_frame_same b a Hb0), (sub_frame_absent blocks a Hrest Hfresh).
    apply app_nil_r.
  - assert (Hneq : a0 <> a).
    { intros ->. apply Hfresh. apply (in_map fst) in Hin. exact Hin. }
    rewrite (sub_frame_other b0 a a0 Hb0 Hneq), (IH Hnd' Hin). reflexivity.
Qed.

Lemma unique_from_seen (seen : list string) (a : string)
    (b rest : list FibResult) :
  In a seen -> Forall (fun r => algo r = a) b ->
  unique_from seen (map algo (b ++ rest)) = unique_from seen (map algo rest).
Proof.
  intros Hseen Hb. induction Hb as [|r b Hr _ IH]; [reflexivity|].
  cbn [app map unique_from]. rewrite Hr.
  replace (existsb (String.eqb a) seen) with true; [exact IH|].
  symmetry. apply existsb_exists. exists a.
  split; [exact Hseen | apply String.eqb_refl].
Qed.

Lemma unique_from_blocks (blocks : list (string * list FibResult)) :
  Forall labelled_block blocks ->
  forall seen,
    NoDup (map fst blocks) ->
    (forall a, In a (map fst blocks) -> ~ In a seen) ->
    unique_from seen (map algo (concat (map snd blocks))) = map fst blocks.
Proof.
  induction 1 as [|[a0 b0] blocks [Hne Hb0] _ IH]; intros seen Hnd Hnew;
    [reflexivity|].
  cbn [map concat snd fst] in *. inversion Hnd as [|? ? Hfresh Hnd']; subst.
  destruct b0 as [|r b0]; [contradiction|].
  inversion Hb0 as [|? ? Hr Hb0']; subst.
  cbn [app map unique_from].
  replace (existsb (String.eqb (algo r)) seen) with false.
  - f_equal. rewrite (unique_from_seen _ (algo r) b0);
      [|left; reflexivity | exact Hb0'].
    apply IH; [exact Hnd'|].
    intros a Ha [<-|Hin]; [contradiction|].
    apply (Hnew a); [right; exact Ha | exact Hin].
  - symmetry. apply Bool.not_true_is_false. intros Hex.
    apply existsb_exists in Hex as (a & Hin & Heq).
    apply String.eqb_eq in Heq. subst a.
    apply (Hnew (algo r)); [left; reflexivity | exact Hin].
Qed.


(** X11. Grouping by label undoes the concatenation: when the collection is a
    concatenation of non-empty blocks with distinct labels, a figure has one
    line per block, in the order of the blocks, drawn from the rows of that
    block and no other. *)
Theorem plot_lines_blocks {Y : Type} (col : FibResult -> Y)
    (blocks : list (string * list FibResult)) :
  NoDup (map fst blocks) -> Forall labelled_block blocks ->
  plot_lines (concat (map snd blocks)) col
  = map (fun ab => (map n (snd ab), map col (snd ab), fst ab)) blocks.
Proof.
  intros Hnd Hok. unfold plot_lines, unique.
  rewrite (unique_from_blocks blocks Hok [] Hnd) by (intros a _ []).
  rewrite map_map. apply map_ext_in. intros [a b] Hin. cbn [fst snd].
  rewrite (sub_frame_block blocks a b Hnd Hok Hin). reflexivity.
Qed.

Lemma plot_lines_blocks_witness :
  let ra := mkFibResult 0 0 1 0%float "iterative" in
  let rb := mkFibResult 0 0 1 0%float "fast_doubling" in
  plot_lines ([ra] ++ [rb]) steps
  = [([0], [1], "iterative"%string); ([0], [1], "fast_doubling"%string)].
Proof.
  intros ra rb.
  apply (plot_lines_blocks steps
           [("iterative"%string, [ra]); ("fast_doubling"%string, [rb])]).
  - repeat constructor; cbn [map fst In]; intuition discriminate.
  - repeat apply Forall_cons; [| |apply Forall_nil];
      (split; cbn [fst snd]; [discriminate | repeat constructor]).
Defined.





(** ** Depth of the naive recursion and sign of the counts *)

(** X13. The recursive strategy nests [max 1 m] calls on [m]: its stack grows
    linearly with the argument, where fast doubling nests [log2 m + 2]. *)
Theorem recursion_depth_is_linear (m : Z) :
  height (recursion_tree m) = Z.max 1 m.
Proof.
  destruct (Z_lt_dec m 2) as [Hlt|Hge].
  - rewrite recursion_tree_base by exact Hlt. cbn [height]. lia.
  - assert (Hm : 0 <= m) by lia. clear Hge. revert m Hm.
    apply Z_strong_ind. intros m Hm IH.
    destruct (Z_lt_dec m 2) as [Hlt|Hge].
    + rewrite recursion_tree_base by exact Hlt. cbn [height]. lia.
    + rewrite recursion_tree_step by lia. cbn [height].
      destruct (Z_lt_dec m 3) as [H2|H3].
      * rewrite (recursion_tree_base (m - 1)), (recursion_tree_base (m - 2))
          by lia.
        cbn [height]. lia.
      * rewrite (IH (m - 1)) by lia.
        destruct (Z_lt_dec m 4) as [H3'|H4].
        -- rewrite (recursion_tree_base (m - 2)) by lia. cbn [height]. lia.
        -- rewrite (IH (m - 2)) by lia. lia.
Qed.

(** X14. Every step count is at least 1, on negative arguments too, and every
    value returned on [m >= 0] is non-negative: the columns [main] draws on
    logarithmic axes hold positive numbers only. *)
Theorem step_counts_are_positive (m : Z) :
  1 <= snd (fib_recursive_with_counts m)
  /\ 1 <= snd (fib_iterative_with_counts m)
  /\ (forall r, fast_doubling_returns m r -> 1 <= snd r /\ 0 <= fst r)
  /\ (0 <= m ->
        0 <= fst (fib_recursive_with_counts m)
        /\ 0 <= fst (fib_iterative_with_counts m)).
Proof.
  split; [|split; [|split]].
  - destruct (Z_lt_dec m 2) as [Hlt|Hge].
    + rewrite fib_recursive_base by exact Hlt. cbn [snd]. lia.
    + rewrite fib_recursive_steps_closed by lia.
      pose proof (Fib_pos (m + 1)). lia.
  - destruct (Z_lt_dec m 2) as [Hlt|Hge].
    + rewrite fib_iterative_base by exact Hlt. cbn [snd]. lia.
    + rewrite fib_iterative_loop by lia. cbn [snd]. lia.
  - intros r Hr. apply fast_doubling_returns_iff in Hr as [Hm ->].
    cbn [fst snd]. split; [apply fd_levels_pos | apply Fib_nonneg].
  - intros Hm. rewrite fib_recursive_value, fib_iterative_value by exact Hm.
    split; apply Fib_nonneg.
Qed.

Lemma step_counts_are_positive_witness :
  0 <= 7
  /\ 0 <= fst (fib_recursive_with_counts 7)
  /\ 0 <= fst (fib_iterative_with_counts 7).
Proof.
  split; [lia | apply (step_counts_are_positive 7); lia].
Defined.
